(** * Rational Goldbach solver: a shallow embedding of
    [crowdmath/rational_goldbach_solver.py] and its verified properties.

    The solver has three functions, composed top-down:
    [find_rational_satisfying_goldbach] (the driver) calls
    [check_goldbach_analogue] (the checker), which calls
    [generate_semidomain_elements] (the generator).

    The Python functions are duck-typed over the numeric argument [r]: they
    are called with [int] literals, with [float] values (by the driver) and
    could be called with [Fraction] values.  The embedding is therefore
    written once, over an interface [Number] holding exactly the operations
    the code applies to [r] ([**], [+], [<], [==]/hash and comparison with
    an [int]), and instantiated for Python's [int] ([Z]) and for exact
    rationals ([Qc]). *)

From Stdlib Require Import ZArith QArith Qcanon.
From stdpp Require Import base decidable countable numbers list sorting gmap.

Local Open Scope Z_scope.

(** ** Python built-ins *)

(** [range(start, stop, step)] for the positive steps the solver uses (1 and
    2): the values [start + i * step] below [stop]. *)
Definition range (start stop step : Z) : list Z :=
  (λ i, start + i * step) <$> seqZ 0 ((stop - start + step - 1) `div` step).

(** The operations of a Python numeric type, as the solver uses them.
    Membership in a [set] goes through [==] and [hash]; on the values of one
    numeric type these coincide with equality of the value, so a Python
    [set] of numbers is a [gset A]. *)
Class Number (A : Type) `{Countable A} := {
  (** an [int] operand, in the mixed comparisons [element > max_value] and
      [even_num in sums], which Python decides exactly *)
  py_int : Z → A;
  (** [a + b] *)
  py_add : A → A → A;
  (** [r ** k], for an [int] exponent [k >= 0] *)
  py_pow : A → nat → A;
  (** [a < b] *)
  py_lt : A → A → Prop;
  py_lt_dec :: RelDecision py_lt
}.

(** [a <= b], which on numbers is [not (b < a)]. *)
Definition py_le `{Number A} (a b : A) : Prop := ¬ py_lt b a.

#[global] Instance py_le_dec `{Number A} : RelDecision (py_le (A:=A)).
Proof. intros a b. unfold py_le. apply _. Defined.

(** [sorted(s)] of a set: the ascending list of its members.  Python's sort
    moves an item before another only when [item < other] holds. *)
Definition sorted `{Number A} (s : gset A) : list A :=
  merge_sort py_le (elements s).

(** Python's [int]. *)
#[global] Instance int_number : Number Z := {
  py_int := id;
  py_add := Z.add;
  py_pow r k := r ^ Z.of_nat k;
  py_lt := Z.lt
}.

(** Exact rationals kept in lowest terms (the arithmetic of Python's
    [Fraction]). *)
#[global] Instance rational_number : Number Qc := {
  py_int := Qc_of_Z;
  py_add := Qcplus;
  py_pow := Qcpower;
  py_lt := Qclt
}.

(** ** The semidomain element generator *)

Section generator.
Context `{Number A}.

(** The [for k in range(max_power)] loop.  [ks] holds the exponents still
    to visit and [elements] the set accumulated so far.  The result is the
    final set together with the early exit, if one was taken: the exponent
    [k] and the power [r ** k] that exceeded [max_value] (what the
    [logging.debug] line reports before [break]). *)
Fixpoint generate_loop (r max_value : A) (ks : list Z) (elements : gset A)
    : gset A * option (Z * A) :=
  match ks with
  | [] => (elements, None)
  | k :: ks' =>
      let element := py_pow r (Z.to_nat k) in
      if decide (py_lt max_value element) then (elements, Some (k, element))
      else generate_loop r max_value ks' ({[ element ]} ∪ elements)
  end.

Definition generate_semidomain_elements (r max_value : A) (max_power : Z)
    : list A :=
  sorted (generate_loop r max_value (range 0 max_power 1) ∅).1.

(** The early exit of a run of the generator. *)
Definition generate_exit (r max_value : A) (max_power : Z) : option (Z * A) :=
  (generate_loop r max_value (range 0 max_power 1) ∅).2.
End generator.

(** The default of the [max_power] parameter. *)
Definition default_max_power : Z := 20.

(** ** The coverage checker *)

Section checker.
Context `{Number A}.

(** [{a + b for a, b in product(elements, repeat=2)}] *)
Definition pairwise_sums (elements : list A) : gset A :=
  list_to_set ((λ ab, py_add ab.1 ab.2) <$> cprod elements elements).

(** The loop over [range(4, max_value + 1, 2)]: the first even number
    that is not in [sums] (the one the [logging.warning] line reports
    before [return False]), or [None] when the loop runs to its end. *)
Fixpoint first_uncovered (sums : gset A) (evens : list Z) : option Z :=
  match evens with
  | [] => None
  | even_num :: evens' =>
      if decide (py_int even_num ∉ sums) then Some even_num
      else first_uncovered sums evens'
  end.

Definition check_goldbach_analogue (r : A) (max_value : Z) : bool :=
  let elements :=
    generate_semidomain_elements r (py_int max_value) default_max_power in
  let sums := pairwise_sums elements in
  match first_uncovered sums (range 4 (max_value + 1) 2) with
  | Some _ => false
  | None => true
  end.
End checker.

(** ** Python's [Fraction] *)

(** A [Fraction] object: its two attributes. *)
Record fraction : Type := { numerator : Z; denominator : Z }.

#[global] Instance fraction_eq_dec : EqDecision fraction.
Proof. solve_decision. Defined.

(** [Fraction(numerator, denominator)] on two [int]s, as the constructor in
    [fractions.py] computes it: a zero denominator raises
    [ZeroDivisionError] ([None]); otherwise both are divided by their
    greatest common divisor, signed so that the stored denominator is
    positive. *)
Definition Fraction (n d : Z) : option fraction :=
  if decide (d = 0) then None
  else
    let g := Z.gcd n d in
    let g := if decide (d < 0) then - g else g in
    Some {| numerator := n `div` g; denominator := d `div` g |}.

(** ** The rational enumeration driver *)

(** The driver's locals: the result list, the counter, and the candidates
    announced so far by the [logging.info("Checking r = ...")] line, each as
    the (numerator, denominator) pair of the loop variables. *)
Record driver_state : Type := {
  valid_rationals : list fraction;
  total_checked : Z;
  visited : list (Z * Z)
}.

(** A [for] loop over a list whose body may raise. *)
Fixpoint for_each {S : Type} (body : Z → S → option S) (ks : list Z) (st : S)
    : option S :=
  match ks with
  | [] => Some st
  | k :: ks' => st' ← body k st; for_each body ks' st'
  end.

Section driver.
(** The type of Python's [float], and [float(r)] for a [Fraction] [r]. *)
Context `{Number F} (float : fraction → F).

(** The body of the inner loop. *)
Definition visit (max_value d n : Z) (st : driver_state)
    : option driver_state :=
  r ← Fraction n d;
  let total := total_checked st + 1 in
  let seen := visited st ++ [(n, d)] in
  Some
    (if check_goldbach_analogue (float r) max_value then
       {| valid_rationals := valid_rationals st ++ [r];
          total_checked := total; visited := seen |}
     else
       {| valid_rationals := valid_rationals st;
          total_checked := total; visited := seen |}).

(** The nested loops, from the initial locals. *)
Definition search_run (max_value max_denominator min_denominator : Z)
    : option driver_state :=
  for_each
    (λ d st, for_each (visit max_value d) (range 1 (d + 1) 1) st)
    (range min_denominator (max_denominator + 1) 1)
    {| valid_rationals := []; total_checked := 0; visited := [] |}.

Definition find_rational_satisfying_goldbach
    (max_value max_denominator min_denominator : Z)
    : option (list fraction) :=
  valid_rationals <$> search_run max_value max_denominator min_denominator.
End driver.

(** [float(r)] without rounding: the exact value of the fraction. *)
Definition exact_float (r : fraction) : Qc :=
  Q2Qc (Qmake (numerator r) (Z.to_pos (denominator r))).

(** ** Specification vocabulary *)

(** What the solver relies on in a numeric type: [<] is a strict total
    order, the embedding of [int] preserves it, [r ** 0] is one, and the unit
    interval is closed under powers while sums of two members of it stay
    below two.  Python's [int], [Fraction] and (on the values that are not
    NaN) [float] all satisfy these. *)
Class NumberLaws (A : Type) `{Number A} : Prop := {
  py_lt_strict :: StrictOrder (py_lt (A:=A));
  py_lt_total : ∀ a b : A, py_lt a b ∨ a = b ∨ py_lt b a;
  py_int_lt : ∀ m n : Z, m < n → py_lt (py_int (A:=A) m) (py_int n);
  py_pow_0 : ∀ r : A, py_pow r 0 = py_int 1;
  py_pow_unit : ∀ (r : A) (k : nat),
    py_le (py_int 0) r → py_le r (py_int 1) → py_le (py_pow r k) (py_int 1);
  py_add_unit : ∀ a b : A,
    py_le a (py_int 1) → py_le b (py_int 1) → py_le (py_add a b) (py_int 2)
}.

(** The even number [e] is the sum of two members of [elements]. *)
Definition covered `{Number A} (elements : list A) (e : Z) : Prop :=
  ∃ a b, a ∈ elements ∧ b ∈ elements ∧ py_int e = py_add a b.

(** The candidates of the nested loops, as (numerator, denominator) pairs in
    the order the loops reach them. *)
Definition grid (max_denominator min_denominator : Z) : list (Z * Z) :=
  d ← range min_denominator (max_denominator + 1) 1;
  (λ n, (n, d)) <$> range 1 (d + 1) 1.

(** The pair (n, d) in lowest terms. *)
Definition lowest_terms (nd : Z * Z) : fraction :=
  {| numerator := nd.1 `div` Z.gcd nd.1 nd.2;
     denominator := nd.2 `div` Z.gcd nd.1 nd.2 |}.

(** The candidate passes the checker. *)
Definition passes `{Number F} (float : fraction → F) (max_value : Z)
    (r : fraction) : Prop :=
  check_goldbach_analogue (float r) max_value = true.

#[global] Instance passes_dec `{Number F} (float : fraction → F) max_value r :
  Decision (passes float max_value r).
Proof. unfold passes. apply _. Defined.

(** The driver's locals after the loops have gone through the candidates
    [cands], starting from the locals [st]. *)
Definition after_candidates `{Number F} (float : fraction → F)
    (max_value : Z) (st : driver_state) (cands : list (Z * Z))
    : driver_state :=
  {| valid_rationals :=
       valid_rationals st ++
       filter (passes float max_value) (lowest_terms <$> cands);
     total_checked := total_checked st + Z.of_nat (length cands);
     visited := visited st ++ cands |}.

(** The numeric types on which [r ** k] returns a value for every base and
    every [int] exponent [k >= 0]: Python's [int] and [Fraction], whose
    arithmetic is exact and unbounded. *)
Inductive exact_power :
    ∀ (A : Type) (E : EqDecision A) (C : Countable A), Number A → Prop :=
  | exact_power_int : exact_power Z _ _ int_number
  | exact_power_fraction : exact_power Qc _ _ rational_number.

(** The bases on which [generate_loop] is the source's loop: those whose
    powers [r ** k] all return.  On a [float] the power of line 32 is
    computed before the ceiling test of line 33 and raises [OverflowError]
    when it is out of range (as [1e200 ** 2]); the loop has no such outcome.
    The power returns for every base of an exact type, and, in any lawful
    numeric type ([float] included), for a base in the unit interval, whose
    powers stay in it. *)
Definition power_returns `{N : Number A} (r : A) : Prop :=
  exact_power A _ _ N ∨
  (NumberLaws A ∧ py_le (py_int 0) r ∧ py_le r (py_int 1)).

(** * Properties *)

(** ** [range] *)

Lemma range_step_1 start stop : range start stop 1 = seqZ start (stop - start).
Proof.
  unfold range. replace (stop - start + 1 - 1) with (stop - start) by lia.
  rewrite Z.div_1_r. trans (Z.add start <$> seqZ 0 (stop - start)).
  - apply list_fmap_ext. intros _ i _. lia.
  - rewrite fmap_add_seqZ. f_equal. lia.
Qed.

Lemma range_nil start stop step : 0 < step → stop ≤ start → range start stop step = [].
Proof.
  intros Hstep Hle. unfold range. rewrite seqZ_nil; [done|].
  assert ((stop - start + step - 1) `div` step < 1); [|lia].
  apply Z.div_lt_upper_bound; lia.
Qed.

Lemma lookup_range start stop step (i : nat) x :
  0 < step →
  range start stop step !! i = Some x ↔
  x = start + Z.of_nat i * step ∧ x < stop.
Proof.
  intros Hstep. unfold range. rewrite list_lookup_fmap, fmap_Some.
  setoid_rewrite lookup_seqZ. split.
  - intros (j & [-> Hlt] & ->). split; [lia|].
    assert (Z.of_nat i + 1 ≤ (stop - start + step - 1) `div` step) as Hd by lia.
    pose proof (Z.mul_div_le (stop - start + step - 1) step Hstep). nia.
  - intros [-> Hlt]. exists (Z.of_nat i). split; [|lia]. split; [lia|].
    apply Z.div_le_lower_bound with (a := stop - start + step - 1) (b := step)
      (q := Z.of_nat i + 1) in Hstep as ?; lia.
Qed.

Lemma elem_of_range start stop step x :
  0 < step →
  x ∈ range start stop step ↔
  start ≤ x < stop ∧ (x - start) `mod` step = 0.
Proof.
  intros Hstep. rewrite list_elem_of_lookup. setoid_rewrite lookup_range; [|done].
  split.
  - intros (i & -> & Hlt). split; [nia|].
    replace (start + Z.of_nat i * step - start) with (Z.of_nat i * step) by lia.
    apply Z.mod_mul. lia.
  - intros [[Hge Hlt] Hmod]. apply Z.mod_divide in Hmod as [q Hq]; [|lia].
    exists (Z.to_nat q). assert (0 ≤ q) by nia. split; [|done]. lia.
Qed.

Lemma elem_of_evens max_value e :
  e ∈ range 4 (max_value + 1) 2 ↔ 4 ≤ e ≤ max_value ∧ Z.even e = true.
Proof.
  rewrite elem_of_range by lia. rewrite Z.even_spec.
  split.
  - intros [? Hmod]. split; [lia|].
    apply Z.mod_divide in Hmod as [q Hq]; [|lia]. exists (q + 2). lia.
  - intros [? [q ->]]. split; [lia|].
    replace (2 * q - 4) with ((q - 2) * 2) by lia. apply Z.mod_mul. lia.
Qed.

(** ** The order of a lawful numeric type *)

Section order.
Context `{NumberLaws A}.

#[local] Instance py_le_total : Total (py_le (A:=A)).
Proof.
  intros a b. unfold py_le. destruct (decide (py_lt b a)) as [Hba|Hba].
  - right. intros Hab. exact (irreflexivity py_lt a (transitivity Hab Hba)).
  - by left.
Qed.

#[local] Instance py_le_trans : Transitive (py_le (A:=A)).
Proof.
  intros a b c Hab Hbc Hca. unfold py_le in *.
  destruct (py_lt_total a b) as [Hlt|[->|Hlt]]; [|done..].
  apply Hbc. by trans a.
Qed.


Lemma py_le_lt_trans (a b c : A) : py_le a b → py_lt b c → py_lt a c.
Proof.
  intros Hab Hbc. destruct (py_lt_total a b) as [?|[->|?]]; [by trans b|done..].
Qed.

End order.

(** ** The generator *)

Section generator_facts.
Context `{Number A}.

Lemma elem_of_sorted (s : gset A) x : x ∈ sorted s ↔ x ∈ s.
Proof. unfold sorted. by rewrite merge_sort_Permutation, elem_of_elements. Qed.

Lemma sorted_empty : sorted (A:=A) ∅ = [].
Proof. unfold sorted. by rewrite elements_empty. Qed.

(** Every member of the loop's set is an accumulated one or a power of
    [r] that does not exceed the ceiling. *)
Lemma generate_loop_elem (r max_value : A) ks acc x :
  x ∈ (generate_loop r max_value ks acc).1 →
  x ∈ acc ∨
  ∃ k, k ∈ ks ∧ x = py_pow r (Z.to_nat k) ∧ py_le x max_value.
Proof.
  revert acc. induction ks as [|k ks IH]; intros acc; simpl; [by left|].
  case_decide as Hgt; simpl; [by left|].
  intros [Hx|(k' & ? & ? & ?)]%IH.
  - apply elem_of_union in Hx as [->%elem_of_singleton|?]; [|by left].
    right. exists k. split; [left|done].
  - right. exists k'. split; [by right|done].
Qed.

Lemma generate_elem (r max_value : A) max_power x :
  x ∈ generate_semidomain_elements r max_value max_power →
  ∃ k, 0 ≤ k < max_power ∧ x = py_pow r (Z.to_nat k) ∧ py_le x max_value.
Proof.
  unfold generate_semidomain_elements. rewrite elem_of_sorted.
  intros [Hx|(k & Hk & ? & ?)]%generate_loop_elem; [set_solver|].
  exists k. split; [|done]. rewrite range_step_1, elem_of_seqZ in Hk. lia.
Qed.

(** With a ceiling below [r ** 0] the loop leaves at its first round. *)
Lemma generate_loop_exit_first (r max_value : A) k ks acc :
  py_lt max_value (py_pow r (Z.to_nat k)) →
  generate_loop r max_value (k :: ks) acc = (acc, Some (k, py_pow r (Z.to_nat k))).
Proof. intros Hgt. simpl. by rewrite decide_True. Qed.
End generator_facts.

(** ** The two numeric instances are lawful *)

#[global] Instance int_laws : NumberLaws Z.
Proof.
  split; simpl; unfold py_le; simpl; unfold id.
  - apply _.
  - lia.
  - lia.
  - intros r. apply Z.pow_0_r.
  - intros r k Hr0 Hr1. assert (r = 0 ∨ r = 1) as [->| ->] by lia.
    + destruct k as [|k]; [rewrite Z.pow_0_r; lia|].
      rewrite Z.pow_0_l by lia. lia.
    + rewrite Z.pow_1_l by lia. lia.
  - lia.
Qed.

Lemma Qc_of_Z_lt (m n : Z) : m < n → (Qc_of_Z m < Qc_of_Z n)%Qc.
Proof.
  intros Hmn. unfold Qclt, Qc_of_Z. simpl. unfold Qlt. simpl. lia.
Qed.

Lemma Qcpower_unit (r : Qc) (k : nat) :
  (0 ≤ r)%Qc → (r ≤ 1)%Qc → (0 ≤ r ^ k ≤ 1)%Qc.
Proof.
  intros Hr0 Hr1. induction k as [|k [IH0 IH1]]; simpl; [done|].
  split.
  - by apply Qcmult_nonneg_nonneg.
  - trans (1 * r ^ k)%Qc.
    + by apply Qcmult_le_compat_r.
    + by rewrite Qcmult_1_l.
Qed.

#[global] Instance rational_laws : NumberLaws Qc.
Proof.
  split; simpl; unfold py_le; simpl.
  - apply _.
  - intros a b. destruct (Qc_dec a b) as [[?|?]|?]; auto.
  - apply Qc_of_Z_lt.
  - intros r. by apply Qc_is_canon.
  - intros r k Hr0%Qcle_ngt Hr1%Qcle_ngt. apply Qcle_ngt.
    by apply Qcpower_unit.
  - intros a b Ha%Qcle_ngt Hb%Qcle_ngt. apply Qcle_ngt.
    by apply (Qcplus_le_compat a 1 b 1).
Qed.



(** ** Claims about the generator *)



(** C7: [generate_semidomain_elements(2, 1000)] returns exactly
    [1, 2, 4, 8, 16, 32, 64, 128, 256, 512]: the loop leaves early at the
    first power exceeding 1000, which is 1024 at [k = 10], before the default
    cap [max_power = 20] binds, and the excess power is not in the result. *)
Theorem generate_2_1000 :
  generate_semidomain_elements (A:=Z) 2 1000 default_max_power
    = [1; 2; 4; 8; 16; 32; 64; 128; 256; 512] ∧
  generate_exit (A:=Z) 2 1000 default_max_power = Some (10, 1024) ∧
  10 < default_max_power ∧
  1024 ∉ generate_semidomain_elements (A:=Z) 2 1000 default_max_power.
Proof.
  assert (generate_semidomain_elements (A:=Z) 2 1000 default_max_power
          = [1; 2; 4; 8; 16; 32; 64; 128; 256; 512]) as Hgen
    by (vm_compute; reflexivity).
  split; [exact Hgen|]. split; [vm_compute; reflexivity|].
  split; [reflexivity|]. rewrite Hgen. intros Hin.
  repeat (apply elem_of_cons in Hin as [Hin|Hin]; [discriminate Hin|]).
  by apply elem_of_nil in Hin.
Qed.

(** C10: for every [r > 0] and every [max_value] with [0 < max_value < 1],
    the generator returns the empty list, whatever [max_power]: the first
    power [r ** 0 = 1] already exceeds [max_value], so the loop leaves at
    [k = 0] with nothing accumulated. *)
Theorem generate_below_one_empty `{NumberLaws A}
    (r max_value : A) (max_power : Z) :
  py_lt (py_int 0) r →
  py_lt (py_int 0) max_value →
  py_lt max_value (py_int 1) →
  generate_semidomain_elements r max_value max_power = [] ∧
  (0 < max_power → generate_exit r max_value max_power = Some (0, py_int 1)).
Proof.
  intros _ _ Hlt. unfold generate_semidomain_elements, generate_exit.
  rewrite range_step_1, Z.sub_0_r.
  destruct (decide (0 < max_power)) as [Hpos|Hneg].
  - rewrite seqZ_cons by done.
    rewrite generate_loop_exit_first by (simpl; by rewrite py_pow_0).
    simpl. rewrite py_pow_0. split; [apply sorted_empty|done].
  - rewrite seqZ_nil by lia. simpl. split; [apply sorted_empty|lia].
Qed.

Lemma generate_below_one_empty_witness :
  generate_semidomain_elements (A:=Qc) (Qc_of_Z 2) (Q2Qc (1 # 2)) 20 = [] ∧
  (0 < 20 →
   generate_exit (A:=Qc) (Qc_of_Z 2) (Q2Qc (1 # 2)) 20 = Some (0, Qc_of_Z 1)).
Proof.
  assert (py_lt (A:=Qc) (py_int 0) (Qc_of_Z 2)) as Hr by reflexivity.
  assert (py_lt (A:=Qc) (py_int 0) (Q2Qc (1 # 2))) as Hm0 by reflexivity.
  assert (py_lt (A:=Qc) (Q2Qc (1 # 2)) (py_int 1)) as Hm1 by reflexivity.
  exact (generate_below_one_empty (A:=Qc) (Qc_of_Z 2) (Q2Qc (1 # 2)) 20
           Hr Hm0 Hm1).
Defined.

(** ** The checker *)

Section checker_facts.
Context `{Number A}.

Lemma elem_of_pairwise_sums (elements : list A) x :
  x ∈ pairwise_sums elements ↔
  ∃ a b, a ∈ elements ∧ b ∈ elements ∧ x = py_add a b.
Proof.
  unfold pairwise_sums. rewrite elem_of_list_to_set, list_elem_of_fmap.
  setoid_rewrite list_elem_of_cprod. split.
  - intros ([a b] & -> & ? & ?). by exists a, b.
  - intros (a & b & ? & ? & ->). by exists (a, b).
Qed.

Lemma covered_pairwise_sums (elements : list A) e :
  py_int e ∈ pairwise_sums elements ↔ covered elements e.
Proof. apply elem_of_pairwise_sums. Qed.

(** The loop runs to its end exactly when every number is in [sums]. *)
Lemma first_uncovered_None (sums : gset A) evens :
  first_uncovered sums evens = None ↔ ∀ e, e ∈ evens → py_int e ∈ sums.
Proof.
  induction evens as [|e evens IH]; simpl.
  - split; [|done]. intros _ e He. by apply elem_of_nil in He.
  - destruct (decide (py_int e ∉ sums)) as [Hin|Hin].
    + split; [done|]. intros Hall. destruct Hin. apply Hall. left.
    + apply dec_stable in Hin. rewrite IH. split.
      * intros Hall e' [->|?]%elem_of_cons; auto.
      * intros Hall e' ?. apply Hall. by right.
Qed.

(** The loop returns at the first position whose number is not in
    [sums]. *)
Lemma first_uncovered_Some (sums : gset A) evens e :
  first_uncovered sums evens = Some e ↔
  ∃ i : nat, evens !! i = Some e ∧ (py_int e ∉ sums) ∧
    (∀ (j : nat) x, (j < i)%nat → evens !! j = Some x → py_int x ∈ sums).
Proof.
  induction evens as [|e0 evens IH]; simpl.
  - split; [done|]. by intros (i & ? & _).
  - destruct (decide (py_int e0 ∉ sums)) as [Hin|Hin].
    + split.
      * intros [= ->]. exists 0%nat. split; [done|]. split; [done|]. lia.
      * intros ([|i] & Hi & Hout & Hbefore); simpl in Hi; [congruence|].
        destruct Hin. apply (Hbefore 0%nat); [lia|done].
    + apply dec_stable in Hin. rewrite IH. split.
      * intros (i & Hi & Hout & Hbefore). exists (S i).
        split; [done|]. split; [done|]. intros [|j] x Hj; simpl.
        -- by intros [= <-].
        -- apply Hbefore. lia.
      * intros ([|i] & Hi & Hout & Hbefore); simpl in Hi.
        -- by injection Hi as ->.
        -- exists i. split; [done|]. split; [done|]. intros j x Hj Hx.
           apply (Hbefore (S j)); [lia|done].
Qed.

Lemma check_true (r : A) max_value :
  check_goldbach_analogue r max_value = true ↔
  first_uncovered
    (pairwise_sums
       (generate_semidomain_elements r (py_int max_value) default_max_power))
    (range 4 (max_value + 1) 2) = None.
Proof. unfold check_goldbach_analogue. simpl. by case_match. Qed.

(** Below 4 there is no even number to cover. *)
Lemma check_vacuous (r : A) max_value :
  max_value < 4 → check_goldbach_analogue r max_value = true.
Proof.
  intros Hlt. apply check_true. by rewrite range_nil by lia.
Qed.

(** An uncovered 4 fails the check whenever 4 is within the ceiling. *)
Lemma check_false_at_4 (r : A) max_value :
  4 ≤ max_value →
  ¬ covered
      (generate_semidomain_elements r (py_int max_value) default_max_power) 4 →
  check_goldbach_analogue r max_value = false.
Proof.
  intros Hge Hnot. apply not_true_is_false. rewrite check_true.
  rewrite first_uncovered_None. intros Hall. apply Hnot.
  apply covered_pairwise_sums, Hall, elem_of_evens. split; [lia|done].
Qed.
End checker_facts.

(** ** Claims about the checker *)



(** C8: [check_goldbach_analogue(1, 1000)] returns false: for [r = 1] the
    element set collapses to the single element 1, the only (hence maximum)
    pairwise sum is 2, and the even integer 4 is not representable. *)
Theorem check_1_1000 :
  check_goldbach_analogue (A:=Z) 1 1000 = false ∧
  generate_semidomain_elements (A:=Z) 1 1000 default_max_power = [1] ∧
  elements (pairwise_sums (A:=Z) [1]) = [2] ∧
  ¬ covered (generate_semidomain_elements (A:=Z) 1 1000 default_max_power) 4.
Proof.
  assert (generate_semidomain_elements (A:=Z) 1 1000 default_max_power = [1])
    as Hgen by (vm_compute; reflexivity).
  split; [vm_compute; reflexivity|]. split; [exact Hgen|].
  split; [vm_compute; reflexivity|]. rewrite Hgen.
  intros (a & b & ->%list_elem_of_singleton & ->%list_elem_of_singleton & Heq).
  discriminate Heq.
Qed.

(** C9: for every [r > 0] and every [max_value < 4],
    [check_goldbach_analogue(r, max_value)] returns true vacuously: the range
    of even integers from 4 to [max_value] is empty, so the loop tests no
    coverage at all. *)
Theorem check_below_4_vacuous `{Number A} (r : A) (max_value : Z) :
  py_lt (py_int 0) r →
  max_value < 4 →
  range 4 (max_value + 1) 2 = [] ∧ check_goldbach_analogue r max_value = true.
Proof.
  intros _ Hlt. split; [apply range_nil; lia|by apply check_vacuous].
Qed.

Lemma check_below_4_vacuous_witness :
  range 4 (3 + 1) 2 = [] ∧ check_goldbach_analogue (A:=Z) 2 3 = true.
Proof.
  assert (py_lt (A:=Z) (py_int 0) 2) as Hr by (simpl; unfold id; lia).
  assert (3 < 4) as Hm by lia.
  exact (check_below_4_vacuous (A:=Z) 2 3 Hr Hm).
Defined.

(** ** The driver *)

Lemma Fraction_positive (n d : Z) :
  0 < d → Fraction n d = Some (lowest_terms (n, d)).
Proof.
  intros Hd. unfold Fraction, lowest_terms.
  rewrite decide_False by lia. simpl. by rewrite decide_False by lia.
Qed.

(** A candidate of the grid is stored with a positive numerator that does
    not exceed its denominator, and in lowest terms. *)
Lemma lowest_terms_unit (n d : Z) :
  1 ≤ n ≤ d →
  0 < numerator (lowest_terms (n, d)) ≤ denominator (lowest_terms (n, d)) ∧
  Z.gcd (numerator (lowest_terms (n, d))) (denominator (lowest_terms (n, d))) = 1.
Proof.
  intros Hnd. unfold lowest_terms. simpl.
  pose proof (Z.gcd_nonneg n d) as Hg0.
  assert (Z.gcd n d ≠ 0) as Hg by (intros [? ?]%Z.gcd_eq_0; lia).
  destruct (Z.gcd_divide_l n d) as [a Ha], (Z.gcd_divide_r n d) as [b Hb].
  split; [|apply Z.gcd_div_gcd; [done|reflexivity]].
  remember (Z.gcd n d) as g eqn:Heqg. clear Heqg.
  assert (n `div` g = a) as -> by (rewrite Ha; by apply Z.div_mul).
  assert (d `div` g = b) as -> by (rewrite Hb; by apply Z.div_mul).
  nia.
Qed.

Lemma elem_of_grid (max_denominator min_denominator n d : Z) :
  (n, d) ∈ grid max_denominator min_denominator ↔
  min_denominator ≤ d ≤ max_denominator ∧ 1 ≤ n ≤ d.
Proof.
  unfold grid. rewrite list_elem_of_bind. split.
  - intros (d' & Hn & Hd). rewrite range_step_1, elem_of_seqZ in Hd.
    apply list_elem_of_fmap in Hn as (n' & [= -> ->] & Hn).
    rewrite range_step_1, elem_of_seqZ in Hn. lia.
  - intros [Hd Hn]. exists d. split.
    + apply list_elem_of_fmap. exists n. split; [done|].
      rewrite range_step_1, elem_of_seqZ. lia.
    + rewrite range_step_1, elem_of_seqZ. lia.
Qed.

Section driver_facts.
Context `{Number F} (float : fraction → F) (max_value : Z).

Lemma after_no_candidates st : after_candidates float max_value st [] = st.
Proof.
  destruct st. unfold after_candidates. simpl.
  by rewrite !app_nil_r, Z.add_0_r.
Qed.

Lemma after_candidates_app st cands1 cands2 :
  after_candidates float max_value
    (after_candidates float max_value st cands1) cands2
  = after_candidates float max_value st (cands1 ++ cands2).
Proof.
  unfold after_candidates. simpl.
  rewrite fmap_app, filter_app, !app_assoc, length_app, Nat2Z.inj_add.
  f_equal. lia.
Qed.

Lemma visit_spec d n st :
  0 < d →
  visit float max_value d n st
  = Some (after_candidates float max_value st [(n, d)]).
Proof.
  intros Hd. unfold visit. rewrite Fraction_positive by done. simpl.
  f_equal. unfold after_candidates. simpl. rewrite filter_cons, filter_nil.
  destruct (decide (passes float max_value (lowest_terms (n, d))))
    as [Hpass|Hfail].
  - unfold passes in Hpass. by rewrite Hpass.
  - apply not_true_is_false in Hfail. by rewrite Hfail, app_nil_r.
Qed.

(** The inner loop, for one positive denominator. *)
Lemma inner_loop_spec d ns st :
  0 < d →
  for_each (visit float max_value d) ns st
  = Some (after_candidates float max_value st ((λ n, (n, d)) <$> ns)).
Proof.
  intros Hd. revert st. induction ns as [|n ns IH]; intros st; simpl.
  - by rewrite after_no_candidates.
  - rewrite visit_spec by done. simpl. rewrite IH.
    by rewrite after_candidates_app.
Qed.

(** The nested loops, from any locals. *)
Lemma outer_loop_spec ds st :
  for_each
    (λ d st, for_each (visit float max_value d) (range 1 (d + 1) 1) st) ds st
  = Some (after_candidates float max_value st
            (d ← ds; (λ n, (n, d)) <$> range 1 (d + 1) 1)).
Proof.
  revert st. induction ds as [|d ds IH]; intros st; simpl.
  - by rewrite after_no_candidates.
  - destruct (decide (0 < d)) as [Hd|Hd].
    + rewrite inner_loop_spec by done. simpl. rewrite IH.
      by rewrite after_candidates_app.
    + rewrite (range_nil 1 (d + 1) 1) by lia. simpl. by rewrite IH.
Qed.

Lemma search_run_spec max_denominator min_denominator :
  search_run float max_value max_denominator min_denominator
  = Some
      {| valid_rationals :=
           filter (passes float max_value)
             (lowest_terms <$> grid max_denominator min_denominator);
         total_checked :=
           Z.of_nat (length (grid max_denominator min_denominator));
         visited := grid max_denominator min_denominator |}.
Proof. unfold search_run. by rewrite outer_loop_spec. Qed.

Lemma find_spec max_denominator min_denominator :
  find_rational_satisfying_goldbach float max_value
    max_denominator min_denominator
  = Some (filter (passes float max_value)
            (lowest_terms <$> grid max_denominator min_denominator)).
Proof.
  unfold find_rational_satisfying_goldbach. by rewrite search_run_spec.
Qed.
End driver_facts.

Lemma grid_from_1 (D : Z) :
  grid D 1 = d ← seqZ 1 D; (λ n, (n, d)) <$> seqZ 1 d.
Proof.
  unfold grid. rewrite range_step_1. replace (D + 1 - 1) with D by lia.
  apply list_bind_ext; [|done]. intros d. rewrite range_step_1.
  by replace (d + 1 - 1) with d by lia.
Qed.

(** The grid for denominators 1 to [k] has [k (k + 1) / 2] candidates. *)
Lemma length_grid (k : nat) :
  Z.of_nat (length (grid (Z.of_nat k) 1))
  = (Z.of_nat k * (Z.of_nat k + 1)) `div` 2.
Proof.
  rewrite grid_from_1. induction k as [|k IH]; [done|].
  rewrite seqZ_S, bind_app, bind_singleton, length_app, length_fmap, length_seqZ.
  rewrite Nat2Z.inj_add, IH.
  replace (Z.of_nat (S k) * (Z.of_nat (S k) + 1))
    with (Z.of_nat k * (Z.of_nat k + 1) + (Z.of_nat k + 1) * 2) by lia.
  rewrite Z.div_add by lia. lia.
Qed.

Lemma filter_none {B : Type} (P : B → Prop) `{∀ x, Decision (P x)} (l : list B) :
  (∀ x, x ∈ l → ¬ P x) → filter P l = [].
Proof.
  induction l as [|x l IH]; intros Hall; [done|].
  rewrite filter_cons_False by (apply Hall; left).
  apply IH. intros y Hy. apply Hall. by right.
Qed.

Lemma filter_all {B : Type} (P : B → Prop) `{∀ x, Decision (P x)} (l : list B) :
  (∀ x, x ∈ l → P x) → filter P l = l.
Proof.
  induction l as [|x l IH]; intros Hall; [done|].
  rewrite filter_cons_True by (apply Hall; left).
  f_equal. apply IH. intros y Hy. apply Hall. by right.
Qed.

(** Two fractions in lowest terms with the same value are the same
    object. *)
Lemma lowest_terms_unique (r1 r2 : fraction) :
  0 < denominator r1 → Z.gcd (numerator r1) (denominator r1) = 1 →
  0 < denominator r2 → Z.gcd (numerator r2) (denominator r2) = 1 →
  numerator r1 * denominator r2 = numerator r2 * denominator r1 →
  r1 = r2.
Proof.
  destruct r1 as [a b], r2 as [c d]. simpl. intros Hb Hab Hd Hcd Heq.
  assert ((b | d)) as [q Hq].
  { apply Z.gauss with a; [|by rewrite Z.gcd_comm].
    exists c. lia. }
  assert ((d | b)) as [q' Hq'].
  { apply Z.gauss with c; [|by rewrite Z.gcd_comm].
    exists a. lia. }
  assert (0 < q) by nia. assert (0 < q') by nia.
  assert (q * q' = 1) as Hqq by (subst d; nia).
  assert (q = 1) as -> by nia.
  assert (b = d) as -> by lia.
  f_equal. nia.
Qed.

(** ** A base in the unit interval covers no even number from 4 on *)

Section unit_interval.
Context `{NumberLaws A}.

Lemma py_int_2_lt (e : Z) (x : A) : 2 < e → py_le x (py_int 2) → x ≠ py_int e.
Proof.
  intros He Hle ->. apply Hle. by apply py_int_lt.
Qed.

Lemma unit_elements (r max_value : A) max_power x :
  py_le (py_int 0) r → py_le r (py_int 1) →
  x ∈ generate_semidomain_elements r max_value max_power →
  py_le x (py_int 1).
Proof.
  intros Hr0 Hr1 (k & _ & -> & _)%generate_elem. by apply py_pow_unit.
Qed.

Lemma unit_sums (r max_value : A) max_power s :
  py_le (py_int 0) r → py_le r (py_int 1) →
  s ∈ pairwise_sums (generate_semidomain_elements r max_value max_power) →
  py_le s (py_int 2).
Proof.
  intros Hr0 Hr1 (a & b & Ha & Hb & ->)%elem_of_pairwise_sums.
  apply py_add_unit; by eapply unit_elements.
Qed.

Lemma unit_not_covered (r max_value : A) max_power e :
  py_le (py_int 0) r → py_le r (py_int 1) → 4 ≤ e →
  ¬ covered (generate_semidomain_elements r max_value max_power) e.
Proof.
  intros Hr0 Hr1 He Hcov%covered_pairwise_sums.
  eapply (py_int_2_lt e); [|by eapply unit_sums|done]. lia.
Qed.

Lemma unit_check_false (r : A) max_value :
  py_le (py_int 0) r → py_le r (py_int 1) → 4 ≤ max_value →
  check_goldbach_analogue r max_value = false.
Proof.
  intros Hr0 Hr1 Hmv. apply check_false_at_4; [done|].
  by apply unit_not_covered.
Qed.
End unit_interval.

(** The exact value of a fraction between 0 and 1 is between 0 and 1. *)
Lemma exact_float_unit (r : fraction) :
  0 < numerator r ≤ denominator r →
  py_le (py_int 0) (exact_float r) ∧ py_le (exact_float r) (py_int 1).
Proof.
  destruct r as [n d]. simpl. intros Hnd. unfold py_le. simpl.
  rewrite <- !Qcle_ngt. unfold exact_float, Qcle. simpl.
  rewrite !Qred_correct. unfold Qle. simpl. rewrite Z2Pos.id by lia. lia.
Qed.

(** ** Claims about the driver *)

(** C1, as stated, fails on the code: the candidate (2, 4) of
    [find_rational_satisfying_goldbach(3, 4, 1)] passes the check, but
    [Fraction(2, 4)] is the object 1/2, so the result list holds no entry
    with numerator 2 and denominator 4; its entries are all in lowest
    terms. *)
Lemma unreduced_pair_not_appended :
  (2, 4) ∈ grid 4 1 ∧
  Fraction 2 4 = Some {| numerator := 1; denominator := 2 |} ∧
  check_goldbach_analogue (exact_float {| numerator := 1; denominator := 2 |}) 3
    = true ∧
  ∃ res,
    find_rational_satisfying_goldbach exact_float 3 4 1 = Some res ∧
    res = (λ nd, {| numerator := nd.1; denominator := nd.2 |}) <$>
            [(1, 1); (1, 2); (1, 1); (1, 3); (2, 3); (1, 1);
             (1, 4); (1, 2); (3, 4); (1, 1)] ∧
    {| numerator := 2; denominator := 4 |} ∉ res.
Proof.
  split; [apply elem_of_grid; lia|]. split; [reflexivity|].
  split; [by apply check_vacuous|].
  eexists. split; [|split; [reflexivity|]].
  - rewrite find_spec.
    rewrite filter_all by (intros r _; by apply check_vacuous).
    vm_compute. reflexivity.
  - simpl. intros Hin.
    repeat (apply elem_of_cons in Hin as [Hin|Hin]; [discriminate Hin|]).
    by apply elem_of_nil in Hin.
Qed.

(** C1, amended: for every qualifying candidate the driver appends
    [Fraction(numerator, denominator)], which holds the pair reduced to
    lowest terms; the result list has one entry per passing candidate, in
    grid order, so distinct grid pairs denoting the same value that both pass
    are both appended, and entries of the same value are the same reduced
    pair. *)
Theorem driver_appends_lowest_terms `{Number F} (float : fraction → F)
    (max_value max_denominator min_denominator : Z) :
  ∃ res,
    find_rational_satisfying_goldbach float max_value
      max_denominator min_denominator = Some res ∧
    res = filter (passes float max_value)
            ((λ nd, {| numerator := nd.1 `div` Z.gcd nd.1 nd.2;
                       denominator := nd.2 `div` Z.gcd nd.1 nd.2 |})
               <$> grid max_denominator min_denominator) ∧
    (∀ r, r ∈ res →
          0 < denominator r ∧ Z.gcd (numerator r) (denominator r) = 1) ∧
    (∀ r1 r2, r1 ∈ res → r2 ∈ res →
              numerator r1 * denominator r2 = numerator r2 * denominator r1 →
              r1 = r2).
Proof.
  eexists. split; [|split; [reflexivity|]].
  - apply find_spec.
  - assert (∀ r,
      r ∈ filter (passes float max_value)
            (lowest_terms <$> grid max_denominator min_denominator) →
      0 < denominator r ∧ Z.gcd (numerator r) (denominator r) = 1) as Hlow.
    { intros r [_ Hr]%list_elem_of_filter.
      apply list_elem_of_fmap in Hr as ([n d] & -> & [_ Hnd]%elem_of_grid).
      destruct (lowest_terms_unit n d Hnd) as [? ?]. split; [lia|done]. }
    split; [exact Hlow|]. intros r1 r2 [? ?]%Hlow [? ?]%Hlow.
    by apply lowest_terms_unique.
Qed.

(** C2: with the documented defaults ([max_value=1000],
    [max_denominator=10], [min_denominator=1]) the search returns the empty
    list: every candidate is a fraction in (0, 1], the members of its
    truncated semidomain do not exceed 1, no pairwise sum exceeds 2, and no
    even integer from 4 on is covered.  [float] is any conversion that keeps
    a fraction of the unit interval inside it. *)
Theorem default_search_empty `{NumberLaws F} (float : fraction → F) :
  (∀ r, 0 < numerator r ≤ denominator r →
        py_le (py_int 0) (float r) ∧ py_le (float r) (py_int 1)) →
  find_rational_satisfying_goldbach float 1000 10 1 = Some [] ∧
  ∀ n d, (n, d) ∈ grid 10 1 →
    0 < numerator (lowest_terms (n, d)) ≤ denominator (lowest_terms (n, d)) ∧
    (∀ x, x ∈ generate_semidomain_elements (float (lowest_terms (n, d)))
                (py_int 1000) default_max_power → py_le x (py_int 1)) ∧
    (∀ s, s ∈ pairwise_sums
                (generate_semidomain_elements (float (lowest_terms (n, d)))
                   (py_int 1000) default_max_power) → py_le s (py_int 2)) ∧
    (∀ e, 4 ≤ e →
          ¬ covered (generate_semidomain_elements (float (lowest_terms (n, d)))
                       (py_int 1000) default_max_power) e) ∧
    check_goldbach_analogue (float (lowest_terms (n, d))) 1000 = false.
Proof.
  intros Hfloat.
  assert (∀ n d, (n, d) ∈ grid 10 1 →
    0 < numerator (lowest_terms (n, d)) ≤ denominator (lowest_terms (n, d)) ∧
    py_le (py_int 0) (float (lowest_terms (n, d))) ∧
    py_le (float (lowest_terms (n, d))) (py_int 1)) as Hunit.
  { intros n d [_ Hnd]%elem_of_grid.
    destruct (lowest_terms_unit n d Hnd) as [Hlow _]. split; [done|].
    by apply Hfloat. }
  split.
  - rewrite find_spec. f_equal. apply filter_none. intros r Hr.
    apply list_elem_of_fmap in Hr as ([n d] & -> & Hnd).
    destruct (Hunit n d Hnd) as (_ & Hr0 & Hr1). unfold passes.
    rewrite unit_check_false; [done..|lia].
  - intros n d Hnd. destruct (Hunit n d Hnd) as (Hlow & Hr0 & Hr1).
    split; [done|]. split; [intros x; by apply unit_elements|].
    split; [intros s; by apply unit_sums|].
    split; [intros e He; by apply unit_not_covered|].
    apply unit_check_false; [done..|lia].
Qed.

Lemma default_search_empty_witness :
  find_rational_satisfying_goldbach exact_float 1000 10 1 = Some [] ∧
  ∀ n d, (n, d) ∈ grid 10 1 →
    0 < numerator (lowest_terms (n, d)) ≤ denominator (lowest_terms (n, d)) ∧
    (∀ x, x ∈ generate_semidomain_elements (exact_float (lowest_terms (n, d)))
                (py_int 1000) default_max_power → py_le x (py_int 1)) ∧
    (∀ s, s ∈ pairwise_sums
                (generate_semidomain_elements (exact_float (lowest_terms (n, d)))
                   (py_int 1000) default_max_power) → py_le s (py_int 2)) ∧
    (∀ e, 4 ≤ e →
          ¬ covered
              (generate_semidomain_elements (exact_float (lowest_terms (n, d)))
                 (py_int 1000) default_max_power) e) ∧
    check_goldbach_analogue (exact_float (lowest_terms (n, d))) 1000 = false.
Proof.
  exact (default_search_empty (F:=Qc) exact_float exact_float_unit).
Defined.

(** C5: for [find_rational_satisfying_goldbach(4, 2, 1)] the candidates are
    visited in the exact order 1/1, 1/2, 2/2 (denominators ascending, and
    for each denominator [d] the numerators 1 to [d] ascending), and the
    result list keeps that order: it is the sublist of the visited
    candidates, each as the [Fraction] it was built into, that pass the
    check. *)
Theorem search_4_2_1_order `{Number F} (float : fraction → F) :
  ∃ st,
    search_run float 4 2 1 = Some st ∧
    visited st = [(1, 1); (1, 2); (2, 2)] ∧
    find_rational_satisfying_goldbach float 4 2 1 = Some (valid_rationals st) ∧
    valid_rationals st
    = filter (passes float 4)
        [{| numerator := 1; denominator := 1 |};
         {| numerator := 1; denominator := 2 |};
         {| numerator := 1; denominator := 1 |}].
Proof.
  rewrite find_spec, search_run_spec.
  eexists. split; [reflexivity|]. cbn [visited valid_rationals].
  split; [vm_compute; reflexivity|]. split; [reflexivity|].
  f_equal.
Qed.

(** C6: for every [D >= 1], a run with [min_denominator=1] and
    [max_denominator=D] checks exactly [D (D + 1) / 2] candidates, one for
    each numerator from 1 to [d] of each denominator [d]. *)
Theorem total_checked_triangular `{Number F} (float : fraction → F)
    (max_value D : Z) :
  1 ≤ D →
  ∃ st,
    search_run float max_value D 1 = Some st ∧
    total_checked st = (D * (D + 1)) `div` 2 ∧
    Z.of_nat (length (visited st)) = total_checked st ∧
    (∀ n d, (n, d) ∈ visited st ↔ 1 ≤ d ≤ D ∧ 1 ≤ n ≤ d).
Proof.
  intros HD. rewrite search_run_spec. eexists. split; [reflexivity|].
  cbn [visited total_checked].
  split; [|split; [done|intros n d; apply elem_of_grid]].
  rewrite <- (Z2Nat.id D) by lia. apply length_grid.
Qed.

Lemma total_checked_triangular_witness :
  ∃ st,
    search_run exact_float 1000 10 1 = Some st ∧
    total_checked st = (10 * (10 + 1)) `div` 2 ∧
    Z.of_nat (length (visited st)) = total_checked st ∧
    (∀ n d, (n, d) ∈ visited st ↔ 1 ≤ d ≤ 10 ∧ 1 ≤ n ≤ d).
Proof.
  assert (1 ≤ 10) as HD by lia.
  exact (total_checked_triangular (F:=Qc) exact_float 1000 10 HD).
Defined.


(** * Further properties of the three functions *)

(** ** The generator's loop, round by round *)

Section generator_loop.
Context `{Number A}.

(** A power enters the set exactly when it and every power before it stay
    within the ceiling. *)
Lemma generate_loop_elem_iff (r max_value : A) ks acc x :
  x ∈ (generate_loop r max_value ks acc).1 ↔
  x ∈ acc ∨
  ∃ (i : nat) k, ks !! i = Some k ∧ x = py_pow r (Z.to_nat k) ∧
    (∀ (j : nat) k', (j ≤ i)%nat → ks !! j = Some k' →
                     py_le (py_pow r (Z.to_nat k')) max_value).
Proof.
revert acc. induction ks as [|k0 ks IH]; intros acc; simpl.
- split; [by left|]. intros [?|(i & k & Hi & _)]; [done|]. by destruct i.
- destruct (decide (py_lt max_value (py_pow r (Z.to_nat k0)))) as [Hgt|Hle];
    simpl.
  + split; [by left|]. intros [?|(i & k & Hi & _ & Hall)]; [done|].
    destruct (Hall 0%nat k0); [lia|done|done].
  + rewrite IH, elem_of_union, elem_of_singleton. split.
    * intros [[->|?]|(i & k & Hi & -> & Hall)]; [|by left|].
      -- right. exists 0%nat, k0. split; [done|]. split; [done|].
         intros [|j] k' Hj; [by intros [= <-]|lia].
      -- right. exists (S i), k. split; [done|]. split; [done|].
         intros [|j] k' Hj; simpl; [by intros [= <-]|].
         apply Hall. lia.
    * intros [?|(i & k & Hi & -> & Hall)]; [by left; right|].
      destruct i as [|i]; simpl in Hi.
      -- injection Hi as ->. by left; left.
      -- right. exists i, k. split; [done|]. split; [done|].
         intros j k' Hj Hk'. apply (Hall (S j)); [lia|done].
Qed.

(** The loop leaves at the first exponent whose power exceeds the
    ceiling. *)
Lemma generate_loop_exit_iff (r max_value : A) ks acc k e :
  (generate_loop r max_value ks acc).2 = Some (k, e) ↔
  ∃ i : nat, ks !! i = Some k ∧ e = py_pow r (Z.to_nat k) ∧
    py_lt max_value e ∧
    (∀ (j : nat) k', (j < i)%nat → ks !! j = Some k' →
                     py_le (py_pow r (Z.to_nat k')) max_value).
Proof.
revert acc. induction ks as [|k0 ks IH]; intros acc; simpl.
- split; [done|]. intros (i & Hi & _). by destruct i.
- destruct (decide (py_lt max_value (py_pow r (Z.to_nat k0)))) as [Hgt|Hle];
    simpl.
  + split.
    * intros [= <- <-]. exists 0%nat. split; [done|]. split; [done|].
      split; [done|]. lia.
    * intros ([|i] & Hi & -> & Hlt & Hall); simpl in Hi.
      -- by injection Hi as ->.
      -- destruct (Hall 0%nat k0); [lia|done|done].
  + rewrite IH. split.
    * intros (i & Hi & -> & Hlt & Hall). exists (S i).
      split; [done|]. split; [done|]. split; [done|].
      intros [|j] k' Hj; simpl; [by intros [= <-]|]. apply Hall. lia.
    * intros ([|i] & Hi & -> & Hlt & Hall); simpl in Hi.
      -- injection Hi as ->. by destruct Hle.
      -- exists i. split; [done|]. split; [done|]. split; [done|].
         intros j k' Hj Hk'. apply (Hall (S j)); [lia|done].
Qed.

(** The loop runs to its end exactly when no power exceeds the ceiling, and
    then it holds every power. *)
Lemma generate_loop_no_exit (r max_value : A) ks acc :
  (generate_loop r max_value ks acc).2 = None ↔
  ∀ k, k ∈ ks → py_le (py_pow r (Z.to_nat k)) max_value.
Proof.
revert acc. induction ks as [|k0 ks IH]; intros acc; simpl.
- split; [|done]. intros _ k Hk. by apply elem_of_nil in Hk.
- destruct (decide (py_lt max_value (py_pow r (Z.to_nat k0)))) as [Hgt|Hle];
    simpl.
  + split; [done|]. intros Hall. destruct (Hall k0); [left|done].
  + rewrite IH. split.
    * intros Hall k [->|?]%elem_of_cons; auto.
    * intros Hall k ?. apply Hall. by right.
Qed.

(** Each round adds at most one member. *)
Lemma generate_loop_size (r max_value : A) ks acc :
  (size (generate_loop r max_value ks acc).1 ≤ size acc + length ks)%nat.
Proof.
revert acc. induction ks as [|k0 ks IH]; intros acc; simpl; [lia|].
case_decide; simpl; [lia|].
etrans; [apply IH|]. rewrite size_union_alt, size_singleton.
assert (size (acc ∖ {[py_pow r (Z.to_nat k0)]}) ≤ size acc)%nat as Hsub.
{ apply subseteq_size. intros y [Hy _]%elem_of_difference. exact Hy. }
lia.
Qed.

Lemma length_sorted (s : gset A) : length (sorted s) = size s.
Proof. unfold sorted. by rewrite merge_sort_Permutation. Qed.
End generator_loop.

(** ** Further properties of the generator *)

(** X1: for a base whose powers return ([power_returns]: any [int] or
    [Fraction], or a base of the unit interval in a lawful numeric type),
    the generator stops at the first excess, it does not filter: a value is
    returned exactly when it is a power [r ** k] with [k < max_power] such
    that [r ** k] and every earlier power are within [max_value]. *)
Theorem generate_member_iff `{Number A} (r max_value : A) (max_power : Z) x :
  power_returns r →
  x ∈ generate_semidomain_elements r max_value max_power ↔
  ∃ k, 0 ≤ k < max_power ∧ x = py_pow r (Z.to_nat k) ∧
       (∀ j, 0 ≤ j ≤ k → py_le (py_pow r (Z.to_nat j)) max_value).
Proof.
intros _. unfold generate_semidomain_elements.
rewrite elem_of_sorted, generate_loop_elem_iff, range_step_1, Z.sub_0_r.
split.
- intros [Hx|(i & k & [-> Hi]%lookup_seqZ & -> & Hall)]; [set_solver|].
  exists (0 + Z.of_nat i). split; [lia|]. split; [done|].
  intros j Hj. apply (Hall (Z.to_nat j)); [lia|].
  apply lookup_seqZ. lia.
- intros (k & Hk & -> & Hall). right. exists (Z.to_nat k), k.
  split; [apply lookup_seqZ; lia|]. split; [done|].
  intros j k' Hj [-> ?]%lookup_seqZ. apply Hall. lia.
Qed.

Lemma generate_member_iff_witness :
  4 ∈ generate_semidomain_elements (A:=Z) 2 1000 20 ↔
  ∃ k, 0 ≤ k < 20 ∧ 4 = py_pow (A:=Z) 2 (Z.to_nat k) ∧
       (∀ j, 0 ≤ j ≤ k → py_le (py_pow (A:=Z) 2 (Z.to_nat j)) 1000).
Proof.
assert (power_returns (A:=Z) 2) as Hdom by (left; constructor).
exact (generate_member_iff (A:=Z) 2 1000 20 4 Hdom).
Defined.

(** X2: for a base whose powers return ([power_returns]), the early exit is
    taken at the least exponent below [max_power] whose power exceeds
    [max_value], and reports that exponent and power; no exit is taken
    exactly when no power below [max_power] exceeds [max_value]. *)
Theorem generate_exit_least `{Number A} (r max_value : A) (max_power : Z) :
  power_returns r →
  (∀ k e,
     generate_exit r max_value max_power = Some (k, e) ↔
     0 ≤ k < max_power ∧ e = py_pow r (Z.to_nat k) ∧ py_lt max_value e ∧
     (∀ j, 0 ≤ j < k → py_le (py_pow r (Z.to_nat j)) max_value)) ∧
  (generate_exit r max_value max_power = None ↔
   ∀ k, 0 ≤ k < max_power → py_le (py_pow r (Z.to_nat k)) max_value).
Proof.
intros _. unfold generate_exit. rewrite range_step_1, Z.sub_0_r. split.
- intros k e. rewrite generate_loop_exit_iff. split.
  + intros (i & [-> Hi]%lookup_seqZ & -> & Hlt & Hall).
    split; [lia|]. split; [done|]. split; [done|].
    intros j Hj. apply (Hall (Z.to_nat j)); [lia|]. apply lookup_seqZ. lia.
  + intros (Hk & -> & Hlt & Hall). exists (Z.to_nat k).
    split; [apply lookup_seqZ; lia|]. split; [done|]. split; [done|].
    intros j k' Hj [-> ?]%lookup_seqZ. apply Hall. lia.
- rewrite generate_loop_no_exit. setoid_rewrite elem_of_seqZ.
  split; intros Hall k Hk; apply Hall; lia.
Qed.

Lemma generate_exit_least_witness :
  (∀ k e,
     generate_exit (A:=Z) 2 1000 20 = Some (k, e) ↔
     0 ≤ k < 20 ∧ e = py_pow (A:=Z) 2 (Z.to_nat k) ∧ py_lt (A:=Z) 1000 e ∧
     (∀ j, 0 ≤ j < k → py_le (py_pow (A:=Z) 2 (Z.to_nat j)) 1000)) ∧
  (generate_exit (A:=Z) 2 1000 20 = None ↔
   ∀ k, 0 ≤ k < 20 → py_le (py_pow (A:=Z) 2 (Z.to_nat k)) 1000).
Proof.
assert (power_returns (A:=Z) 2) as Hdom by (left; constructor).
exact (generate_exit_least (A:=Z) 2 1000 20 Hdom).
Defined.

(** X3: for a base whose powers return ([power_returns]), the generator
    returns at most [max_power] values, and none at all when [max_power] is
    zero or negative. *)
Theorem generate_length_bound `{Number A} (r max_value : A) (max_power : Z) :
  power_returns r →
  Z.of_nat (length (generate_semidomain_elements r max_value max_power))
    ≤ Z.max 0 max_power ∧
  (max_power ≤ 0 → generate_semidomain_elements r max_value max_power = []).
Proof.
intros _.
assert (Z.of_nat (length (generate_semidomain_elements r max_value max_power))
        ≤ Z.max 0 max_power) as Hlen.
{ unfold generate_semidomain_elements. rewrite length_sorted.
  pose proof (generate_loop_size r max_value (range 0 max_power 1) ∅) as Hsz.
  assert (length (range 0 max_power 1) = Z.to_nat max_power) as Hrange
    by (rewrite range_step_1, length_seqZ; f_equal; lia).
  rewrite size_empty, Hrange in Hsz. lia. }
split; [exact Hlen|]. intros Hneg.
destruct (generate_semidomain_elements r max_value max_power); [done|].
simpl in Hlen. lia.
Qed.

Lemma generate_length_bound_witness :
  Z.of_nat (length (generate_semidomain_elements (A:=Z) 2 1000 20))
    ≤ Z.max 0 20 ∧
  (20 ≤ 0 → generate_semidomain_elements (A:=Z) 2 1000 20 = []).
Proof.
assert (power_returns (A:=Z) 2) as Hdom by (left; constructor).
exact (generate_length_bound (A:=Z) 2 1000 20 Hdom).
Defined.

(** X4: for a base in the unit interval and a ceiling of at least 1 the
    early exit is never taken: the loop runs all [max_power] rounds and the
    result holds every power [r ** k] with [k < max_power]. *)
Theorem generate_unit_base_no_exit `{NumberLaws A}
    (r max_value : A) (max_power : Z) :
  py_le (py_int 0) r →
  py_le r (py_int 1) →
  py_le (py_int 1) max_value →
  generate_exit r max_value max_power = None ∧
  ∀ x, x ∈ generate_semidomain_elements r max_value max_power ↔
       ∃ k, 0 ≤ k < max_power ∧ x = py_pow r (Z.to_nat k).
Proof.
intros Hr0 Hr1 Hmv.
assert (∀ k : Z, py_le (py_pow r (Z.to_nat k)) max_value) as Hle.
{ intros k. apply (py_le_trans _ (py_int 1)); [by apply py_pow_unit|done]. }
split.
- unfold generate_exit. apply generate_loop_no_exit. auto.
- intros x. unfold generate_semidomain_elements.
  rewrite elem_of_sorted, generate_loop_elem_iff, range_step_1, Z.sub_0_r.
  split.
  + intros [Hx|(i & k & [-> Hi]%lookup_seqZ & -> & _)]; [set_solver|].
    exists (0 + Z.of_nat i). split; [lia|done].
  + intros (k & Hk & ->). right. exists (Z.to_nat k), k.
    split; [apply lookup_seqZ; lia|]. split; [done|]. auto.
Qed.

Lemma generate_unit_base_no_exit_witness :
  generate_exit (A:=Qc) (Q2Qc (1 # 2)) (Qc_of_Z 1000) 20 = None ∧
  ∀ x, x ∈ generate_semidomain_elements (A:=Qc) (Q2Qc (1 # 2)) (Qc_of_Z 1000) 20 ↔
       ∃ k, 0 ≤ k < 20 ∧ x = py_pow (Q2Qc (1 # 2)) (Z.to_nat k).
Proof.
assert (py_le (A:=Qc) (py_int 0) (Q2Qc (1 # 2))) as Hr0 by (by intros ?).
assert (py_le (A:=Qc) (Q2Qc (1 # 2)) (py_int 1)) as Hr1 by (by intros ?).
assert (py_le (A:=Qc) (py_int 1) (Qc_of_Z 1000)) as Hmv by (by intros ?).
exact (generate_unit_base_no_exit (A:=Qc) (Q2Qc (1 # 2)) (Qc_of_Z 1000) 20
         Hr0 Hr1 Hmv).
Defined.

(** ** Sorting a set whose members are known in ascending order *)

Section sorted_facts.
Context `{NumberLaws A}.

Lemma py_lt_le (a b : A) : py_lt a b → py_le a b.
Proof. intros Hab Hba. exact (irreflexivity py_lt a (transitivity Hab Hba)). Qed.

#[local] Instance py_le_antisym : AntiSymm (=) (py_le (A:=A)).
Proof.
intros a b Hab Hba. by destruct (py_lt_total a b) as [?|[?|?]].
Qed.

Lemma strictly_sorted_NoDup (l : list A) : StronglySorted py_lt l → NoDup l.
Proof.
induction 1 as [|x l _ IH Hall]; constructor; [|done].
intros Hx. rewrite Forall_forall in Hall.
exact (irreflexivity py_lt x (Hall x Hx)).
Qed.

Lemma sorted_list_to_set (l : list A) :
  StronglySorted py_lt l → sorted (list_to_set l) = l.
Proof.
intros Hl. unfold sorted. apply (StronglySorted_unique py_le).
- apply (StronglySorted_merge_sort py_le (Transitive0 := py_le_trans)
           (Total0 := py_le_total)).
- induction Hl as [|x l _ IH Hall]; constructor; [done|].
  eapply Forall_impl; [exact Hall|]. intros y. apply py_lt_le.
- rewrite merge_sort_Permutation. apply elements_list_to_set.
  by apply strictly_sorted_NoDup.
Qed.

(** The result of the generator when its powers up to the exit are known to
    ascend. *)
Lemma generate_ascending_prefix (r max_value : A) (max_power K : Z) :
  0 ≤ K ≤ max_power →
  (∀ j, 0 ≤ j < K → py_le (py_pow r (Z.to_nat j)) max_value) →
  (K = max_power ∨ py_lt max_value (py_pow r (Z.to_nat K))) →
  StronglySorted py_lt ((λ j, py_pow r (Z.to_nat j)) <$> seqZ 0 K) →
  generate_semidomain_elements r max_value max_power
  = (λ j, py_pow r (Z.to_nat j)) <$> seqZ 0 K.
Proof.
intros HK Hin Hout Hsorted. rewrite <- (sorted_list_to_set _ Hsorted).
unfold generate_semidomain_elements. f_equal. apply set_eq. intros x.
rewrite generate_loop_elem_iff, elem_of_list_to_set, list_elem_of_fmap.
rewrite range_step_1, Z.sub_0_r. setoid_rewrite elem_of_seqZ. split.
- intros [Hx|(i & k & [-> Hi]%lookup_seqZ & -> & Hall)]; [set_solver|].
  exists (0 + Z.of_nat i). split; [done|].
  destruct (decide (0 + Z.of_nat i < K)) as [?|Hge]; [lia|].
  destruct Hout as [->|Hgt]; [lia|].
  destruct (Hall (Z.to_nat K) K); [lia|apply lookup_seqZ; lia|done].
- intros (k & -> & Hk). right. exists (Z.to_nat k), k.
  split; [apply lookup_seqZ; lia|]. split; [done|].
  intros j k' Hj [-> ?]%lookup_seqZ. apply Hin. lia.
Qed.
End sorted_facts.

(** The powers of an integer base from 2 on ascend. *)
Lemma int_powers_ascending (r m : Z) (n : nat) :
  2 ≤ r → 0 ≤ m →
  StronglySorted Z.lt
    ((λ j, r ^ Z.of_nat (Z.to_nat j)) <$> seqZ m (Z.of_nat n)).
Proof.
intros Hr. revert m. induction n as [|n IH]; intros m Hm.
- rewrite seqZ_nil by lia. constructor.
- rewrite seqZ_cons by lia. rewrite fmap_cons. constructor.
  + replace (Z.pred (Z.of_nat (S n))) with (Z.of_nat n) by lia.
    apply IH. lia.
  + rewrite Forall_fmap. apply Forall_seqZ. intros j Hj. simpl.
    rewrite !Z2Nat.id by lia. apply Z.pow_lt_mono_r; lia.
Qed.

(** X5: a base whose powers are all one value [c] (as for [r = 1]) yields
    the one-element list [[c]], without an early exit, whenever [c] is
    within [max_value] and [max_power] is at least 1: the repeated powers
    collapse in the set. *)
Theorem generate_constant_powers `{Number A}
    (r c max_value : A) (max_power : Z) :
  (∀ k, py_pow r k = c) →
  py_le c max_value →
  1 ≤ max_power →
  generate_semidomain_elements r max_value max_power = [c] ∧
  generate_exit r max_value max_power = None.
Proof.
intros Hpow Hle Hmp. split.
- unfold generate_semidomain_elements.
  assert ((generate_loop r max_value (range 0 max_power 1) ∅).1 = {[ c ]})
    as ->.
  { apply set_eq. intros x.
    rewrite generate_loop_elem_iff, range_step_1, Z.sub_0_r, elem_of_singleton.
    split.
    - intros [Hx|(i & k & _ & -> & _)]; [set_solver|]. apply Hpow.
    - intros ->. right. exists 0%nat, 0. split; [apply lookup_seqZ; lia|].
      split; [by rewrite Hpow|]. intros j k' _ _. by rewrite Hpow. }
  unfold sorted. by rewrite elements_singleton.
- unfold generate_exit. apply generate_loop_no_exit. intros k _.
  by rewrite Hpow.
Qed.

Lemma generate_constant_powers_witness :
  generate_semidomain_elements (A:=Z) 1 1000 20 = [1] ∧
  generate_exit (A:=Z) 1 1000 20 = None.
Proof.
assert (∀ k, py_pow (A:=Z) 1 k = 1) as Hpow
  by (intros k; simpl; apply Z.pow_1_l; lia).
assert (py_le (A:=Z) 1 1000) as Hle by (unfold py_le; simpl; lia).
assert (1 ≤ 20) as Hmp by lia.
exact (generate_constant_powers (A:=Z) 1 1 1000 20 Hpow Hle Hmp).
Defined.

(** X6: for an [int] base [r >= 2] the generator returns exactly [r ** 0,
    r ** 1, ..., r ** (K - 1)], in this order, where [K] is the number of
    rounds before the exit: the powers up to [r ** (K - 1)] are within
    [max_value], and either [K = max_power] or [r ** K] exceeds
    [max_value]. *)
Theorem generate_int_base (r max_value max_power K : Z) :
  2 ≤ r →
  0 ≤ K ≤ max_power →
  (0 < K → r ^ (K - 1) ≤ max_value) →
  (K = max_power ∨ max_value < r ^ K) →
  generate_semidomain_elements (A:=Z) r max_value max_power
  = (λ j, r ^ j) <$> seqZ 0 K.
Proof.
intros Hr HK Hin Hout.
rewrite (generate_ascending_prefix (A:=Z) r max_value max_power K HK).
- apply list_fmap_ext. intros i j [-> _]%lookup_seqZ. simpl.
  by rewrite Z2Nat.id by lia.
- intros j Hj. unfold py_le. simpl. rewrite Z2Nat.id by lia.
  assert (r ^ j ≤ r ^ (K - 1)) by (apply Z.pow_le_mono_r; lia). lia.
- destruct Hout as [->|Hgt]; [by left|right]. simpl.
  by rewrite Z2Nat.id by lia.
- rewrite <- (Z2Nat.id K) by lia. apply int_powers_ascending; [done|lia].
Qed.

Lemma generate_int_base_witness :
  generate_semidomain_elements (A:=Z) 2 1000 20 = (λ j, 2 ^ j) <$> seqZ 0 10.
Proof.
assert (2 ≤ 2) as Hr by lia.
assert (0 ≤ 10 ≤ 20) as HK by lia.
assert (0 < 10 → 2 ^ (10 - 1) ≤ 1000) as Hin by (intros _; simpl; lia).
assert (10 = 20 ∨ 1000 < 2 ^ 10) as Hout by (right; simpl; lia).
exact (generate_int_base 2 1000 20 10 Hr HK Hin Hout).
Defined.

(** ** Further properties of the checker *)

(** X7: a base in the unit interval fails the check for every ceiling from
    4 on, and the loop already stops at its first even number, 4. *)
Theorem check_unit_base_false `{NumberLaws A} (r : A) (max_value : Z) :
  py_le (py_int 0) r →
  py_le r (py_int 1) →
  4 ≤ max_value →
  check_goldbach_analogue r max_value = false ∧
  first_uncovered
    (pairwise_sums
       (generate_semidomain_elements r (py_int max_value) default_max_power))
    (range 4 (max_value + 1) 2) = Some 4.
Proof.
intros Hr0 Hr1 Hmv. split; [by apply unit_check_false|].
apply first_uncovered_Some. exists 0%nat.
split; [apply lookup_range; lia|]. split; [|lia].
rewrite covered_pairwise_sums. by apply unit_not_covered.
Qed.

Lemma check_unit_base_false_witness :
  check_goldbach_analogue (A:=Qc) (Q2Qc (1 # 2)) 4 = false ∧
  first_uncovered
    (pairwise_sums
       (generate_semidomain_elements (A:=Qc) (Q2Qc (1 # 2)) (py_int 4)
          default_max_power))
    (range 4 (4 + 1) 2) = Some 4.
Proof.
assert (py_le (A:=Qc) (py_int 0) (Q2Qc (1 # 2))) as Hr0 by (by intros ?).
assert (py_le (A:=Qc) (Q2Qc (1 # 2)) (py_int 1)) as Hr1 by (by intros ?).
assert (4 ≤ 4) as Hmv by lia.
exact (check_unit_base_false (A:=Qc) (Q2Qc (1 # 2)) 4 Hr0 Hr1 Hmv).
Defined.

Lemma power_of_2_small (k : Z) : 0 ≤ k → 2 ^ k < 16 → k < 4.
Proof.
intros Hk Hlt. destruct (decide (k < 4)) as [?|Hge]; [done|].
assert (2 ^ 4 ≤ 2 ^ k) by (apply Z.pow_le_mono_r; lia). simpl in *. lia.
Qed.

(** 14 is not the sum of two powers of 2. *)
Lemma two_powers_of_2_not_14 (j k : Z) : 0 ≤ j → 0 ≤ k → 2 ^ j + 2 ^ k ≠ 14.
Proof.
intros Hj Hk Hsum.
assert (0 < 2 ^ j) by (apply Z.pow_pos_nonneg; lia).
assert (0 < 2 ^ k) by (apply Z.pow_pos_nonneg; lia).
assert (j < 4) by (apply power_of_2_small; lia).
assert (k < 4) by (apply power_of_2_small; lia).
assert (j = 0 ∨ j = 1 ∨ j = 2 ∨ j = 3) as [->|[->|[->| ->]]] by lia;
  assert (k = 0 ∨ k = 1 ∨ k = 2 ∨ k = 3) as [->|[->|[->| ->]]] by lia;
  simpl in Hsum; lia.
Qed.

(** X8: the [int] base 2 passes the check exactly for the ceilings below
    14: up to 12 every even number from 4 on is a sum of two powers of 2,
    and 14 is not. *)
Theorem check_base_2 (max_value : Z) :
  check_goldbach_analogue (A:=Z) 2 max_value = true ↔ max_value < 14.
Proof.
split.
- intros Hcheck. destruct (decide (max_value < 14)) as [?|Hge]; [done|].
  exfalso. apply check_true in Hcheck.
  rewrite first_uncovered_None in Hcheck.
  assert (14 ∈ range 4 (max_value + 1) 2) as H14
    by (apply elem_of_evens; split; [lia|done]).
  apply Hcheck, covered_pairwise_sums in H14 as (a & b & Ha & Hb & Hsum).
  apply generate_elem in Ha as (j & Hj & -> & _).
  apply generate_elem in Hb as (k & Hk & -> & _).
  simpl in Hsum. unfold id in Hsum.
  apply (two_powers_of_2_not_14 (Z.of_nat (Z.to_nat j)) (Z.of_nat (Z.to_nat k)));
    lia.
- intros Hlt. destruct (decide (max_value < 4)) as [?|Hge];
    [by apply check_vacuous|].
  assert (max_value = 4 ∨ max_value = 5 ∨ max_value = 6 ∨ max_value = 7 ∨
          max_value = 8 ∨ max_value = 9 ∨ max_value = 10 ∨ max_value = 11 ∨
          max_value = 12 ∨ max_value = 13)
    as [->|[->|[->|[->|[->|[->|[->|[->|[->| ->]]]]]]]]] by lia;
    vm_compute; reflexivity.
Qed.

(** ** Further properties of the driver *)

Lemma grid_from (D m : Z) :
  grid D m = d ← seqZ m (D + 1 - m); (λ n, (n, d)) <$> seqZ 1 d.
Proof.
unfold grid. rewrite range_step_1.
apply list_bind_ext; [|done]. intros d. rewrite range_step_1.
by replace (d + 1 - 1) with d by lia.
Qed.

(** Twice the number of candidates for [n] denominators from [m] on. *)
Lemma length_grid_from (m : Z) (n : nat) :
  1 ≤ m →
  2 * Z.of_nat (length (d ← seqZ m (Z.of_nat n); (λ n, (n, d)) <$> seqZ 1 d))
  = Z.of_nat n * (2 * m + Z.of_nat n - 1).
Proof.
intros Hm. induction n as [|n IH]; [done|].
rewrite seqZ_S, bind_app, bind_singleton, length_app, length_fmap, length_seqZ.
rewrite Nat2Z.inj_add. lia.
Qed.

Lemma grid_nil (D m : Z) : D < m ∨ D < 1 → grid D m = [].
Proof.
intros Hempty. apply elem_of_nil_inv. intros [n d] Hnd%elem_of_grid. lia.
Qed.

Lemma NoDup_grid (D m : Z) : NoDup (grid D m).
Proof.
rewrite grid_from. apply NoDup_bind.
- intros d1 d2 [n d] _ _ Hd1 Hd2.
  apply list_elem_of_fmap in Hd1 as (? & [= _ ->] & _).
  by apply list_elem_of_fmap in Hd2 as (? & [= _ ->] & _).
- intros d _. apply NoDup_fmap_2_strong; [|apply NoDup_seqZ].
  by intros n1 n2 _ _ [= ->].
- apply NoDup_seqZ.
Qed.

(** The value of a candidate is kept when it is put in lowest terms. *)
Lemma lowest_terms_value (n d : Z) :
  1 ≤ n ≤ d →
  numerator (lowest_terms (n, d)) * d = n * denominator (lowest_terms (n, d)) ∧
  denominator (lowest_terms (n, d)) ≤ d.
Proof.
intros Hnd. unfold lowest_terms. simpl.
pose proof (Z.gcd_nonneg n d) as Hg0.
assert (Z.gcd n d ≠ 0) as Hg by (intros [? ?]%Z.gcd_eq_0; lia).
destruct (Z.gcd_divide_l n d) as [a Ha], (Z.gcd_divide_r n d) as [b Hb].
remember (Z.gcd n d) as g eqn:Heqg. clear Heqg.
assert (n `div` g = a) as -> by (rewrite Ha; by apply Z.div_mul).
assert (d `div` g = b) as -> by (rewrite Hb; by apply Z.div_mul).
split; nia.
Qed.

Lemma lowest_terms_half (q : Z) :
  1 ≤ q → lowest_terms (q, 2 * q) = {| numerator := 1; denominator := 2 |}.
Proof.
intros Hq. unfold lowest_terms. simpl fst. simpl snd.
replace (Z.gcd q (2 * q)) with q.
- f_equal; [apply Z.div_same; lia|apply Z.div_mul; lia].
- rewrite (Z.mul_comm 2 q), Z.gcd_mul_diag_l; lia.
Qed.

(** X9: for all integer bounds, zero and negative denominators included, the
    driver runs to its end: [Fraction] never raises [ZeroDivisionError],
    because the inner loop is empty for a denominator below 1.  The
    candidates visited are exactly the pairs with [min_denominator <= d <=
    max_denominator] and [1 <= n <= d]. *)
Theorem search_never_raises `{Number F} (float : fraction → F)
    (max_value max_denominator min_denominator : Z) :
  ∃ st,
    search_run float max_value max_denominator min_denominator = Some st ∧
    find_rational_satisfying_goldbach float max_value
      max_denominator min_denominator = Some (valid_rationals st) ∧
    (∀ n d, (n, d) ∈ visited st ↔
            min_denominator ≤ d ≤ max_denominator ∧ 1 ≤ n ≤ d).
Proof.
rewrite find_spec, search_run_spec. eexists. split; [reflexivity|].
cbn [visited valid_rationals]. split; [reflexivity|].
intros n d. apply elem_of_grid.
Qed.

(** X10: when [max_denominator] is below [min_denominator] or below 1, no
    candidate is checked: the result list is empty and the counter stays
    0. *)
Theorem search_no_candidates `{Number F} (float : fraction → F)
    (max_value max_denominator min_denominator : Z) :
  max_denominator < min_denominator ∨ max_denominator < 1 →
  search_run float max_value max_denominator min_denominator
  = Some {| valid_rationals := []; total_checked := 0; visited := [] |}.
Proof.
intros Hempty. rewrite search_run_spec. by rewrite grid_nil by done.
Qed.

Lemma search_no_candidates_witness :
  search_run exact_float 1000 0 1
  = Some {| valid_rationals := []; total_checked := 0; visited := [] |}.
Proof.
assert (0 < 1 ∨ 0 < 1) as Hempty by (left; lia).
exact (search_no_candidates (F:=Qc) exact_float 1000 0 1 Hempty).
Defined.

(** X11: for denominators from [m >= 1] to [D], the counter ends at the
    number of pairs [1 <= n <= d], [m <= d <= D]: twice the counter is
    [(D + 1 - m) (D + m)]. *)
Theorem total_checked_from `{Number F} (float : fraction → F)
    (max_value D m : Z) :
  1 ≤ m →
  m ≤ D + 1 →
  ∃ st,
    search_run float max_value D m = Some st ∧
    2 * total_checked st = (D + 1 - m) * (D + m).
Proof.
intros Hm HD. rewrite search_run_spec. eexists. split; [reflexivity|].
cbn [total_checked]. rewrite grid_from.
rewrite <- (Z2Nat.id (D + 1 - m)) at 1 by lia.
rewrite length_grid_from by done. rewrite Z2Nat.id by lia. lia.
Qed.

Lemma total_checked_from_witness :
  ∃ st,
    search_run exact_float 1000 5 3 = Some st ∧
    2 * total_checked st = (5 + 1 - 3) * (5 + 3).
Proof.
assert (1 ≤ 3) as Hm by lia.
assert (3 ≤ 5 + 1) as HD by lia.
exact (total_checked_from (F:=Qc) exact_float 1000 5 3 Hm HD).
Defined.

(** X12: for every ceiling from 4 on and all denominator bounds the search
    returns the empty list, whenever [float] keeps a fraction of the unit
    interval inside it: the grid holds only bases that cannot cover 4. *)
Theorem search_empty_from_4 `{NumberLaws F} (float : fraction → F)
    (max_value max_denominator min_denominator : Z) :
  (∀ r, 0 < numerator r ≤ denominator r →
        py_le (py_int 0) (float r) ∧ py_le (float r) (py_int 1)) →
  4 ≤ max_value →
  find_rational_satisfying_goldbach float max_value
    max_denominator min_denominator = Some [].
Proof.
intros Hfloat Hmv. rewrite find_spec. f_equal. apply filter_none. intros r Hr.
apply list_elem_of_fmap in Hr as ([n d] & -> & [_ Hnd]%elem_of_grid).
destruct (lowest_terms_unit n d Hnd) as [Hlow _].
destruct (Hfloat _ Hlow) as [Hr0 Hr1]. unfold passes.
by rewrite unit_check_false.
Qed.

Lemma search_empty_from_4_witness :
  find_rational_satisfying_goldbach exact_float 4 3 1 = Some [].
Proof.
assert (4 ≤ 4) as Hmv by lia.
exact (search_empty_from_4 (F:=Qc) exact_float 4 3 1 exact_float_unit Hmv).
Defined.

(** X13: for a ceiling below 4 every candidate passes: the search returns
    one fraction per visited pair, in lowest terms and in grid order. *)
Theorem search_all_pass_below_4 `{Number F} (float : fraction → F)
    (max_value max_denominator min_denominator : Z) :
  max_value < 4 →
  ∃ st,
    search_run float max_value max_denominator min_denominator = Some st ∧
    valid_rationals st
    = (λ nd, {| numerator := nd.1 `div` Z.gcd nd.1 nd.2;
                denominator := nd.2 `div` Z.gcd nd.1 nd.2 |}) <$> visited st ∧
    Z.of_nat (length (valid_rationals st)) = total_checked st.
Proof.
intros Hmv. rewrite search_run_spec. eexists. split; [reflexivity|].
cbn [visited valid_rationals total_checked].
rewrite filter_all by (intros r _; by apply check_vacuous).
split; [reflexivity|]. by rewrite length_fmap.
Qed.

Lemma search_all_pass_below_4_witness :
  ∃ st,
    search_run exact_float 3 4 1 = Some st ∧
    valid_rationals st
    = (λ nd, {| numerator := nd.1 `div` Z.gcd nd.1 nd.2;
                denominator := nd.2 `div` Z.gcd nd.1 nd.2 |}) <$> visited st ∧
    Z.of_nat (length (valid_rationals st)) = total_checked st.
Proof.
assert (3 < 4) as Hmv by lia.
exact (search_all_pass_below_4 (F:=Qc) exact_float 3 4 1 Hmv).
Defined.

(** X14: every returned fraction passed the check, lies in (0, 1], has a
    denominator of at most [max_denominator], and has the value of a
    candidate [n / d] of the grid. *)
Theorem result_entries_shape `{Number F} (float : fraction → F)
    (max_value max_denominator min_denominator : Z) :
  ∃ res,
    find_rational_satisfying_goldbach float max_value
      max_denominator min_denominator = Some res ∧
    ∀ r, r ∈ res →
      check_goldbach_analogue (float r) max_value = true ∧
      0 < numerator r ≤ denominator r ∧
      denominator r ≤ max_denominator ∧
      ∃ n d, min_denominator ≤ d ≤ max_denominator ∧ 1 ≤ n ≤ d ∧
             numerator r * d = n * denominator r.
Proof.
rewrite find_spec. eexists. split; [reflexivity|].
intros r [Hpass Hr]%list_elem_of_filter.
apply list_elem_of_fmap in Hr as ([n d] & -> & [Hd Hnd]%elem_of_grid).
destruct (lowest_terms_unit n d Hnd) as [Hlow _].
destruct (lowest_terms_value n d Hnd) as [Hval Hden].
split; [exact Hpass|]. split; [done|]. split; [lia|].
by exists n, d.
Qed.

(** X15: [min_denominator] bounds the loop variable, not the denominators
    of the result: for a ceiling below 4, whenever an even denominator
    [2 q] is in range, the result holds the fraction 1/2, whose denominator
    2 can be below [min_denominator]. *)
Theorem result_denominator_below_min `{Number F} (float : fraction → F)
    (max_value max_denominator min_denominator q : Z) :
  max_value < 4 →
  1 ≤ q →
  min_denominator ≤ 2 * q ≤ max_denominator →
  ∃ res,
    find_rational_satisfying_goldbach float max_value
      max_denominator min_denominator = Some res ∧
    {| numerator := 1; denominator := 2 |} ∈ res.
Proof.
intros Hmv Hq Hd. rewrite find_spec. eexists. split; [reflexivity|].
rewrite filter_all by (intros r _; by apply check_vacuous).
apply list_elem_of_fmap. exists (q, 2 * q).
split; [by rewrite lowest_terms_half|]. apply elem_of_grid. lia.
Qed.

Lemma result_denominator_below_min_witness :
  ∃ res,
    find_rational_satisfying_goldbach exact_float 3 4 4 = Some res ∧
    {| numerator := 1; denominator := 2 |} ∈ res.
Proof.
assert (3 < 4) as Hmv by lia.
assert (1 ≤ 2) as Hq by lia.
assert (4 ≤ 2 * 2 ≤ 4) as Hd by lia.
exact (result_denominator_below_min (F:=Qc) exact_float 3 4 4 2 Hmv Hq Hd).
Defined.

(** X16: no candidate is visited twice, the counter is the number of
    visited candidates, and the result list is never longer than it. *)
Theorem visited_once `{Number F} (float : fraction → F)
    (max_value max_denominator min_denominator : Z) :
  ∃ st,
    search_run float max_value max_denominator min_denominator = Some st ∧
    NoDup (visited st) ∧
    total_checked st = Z.of_nat (length (visited st)) ∧
    Z.of_nat (length (valid_rationals st)) ≤ total_checked st.
Proof.
rewrite search_run_spec. eexists. split; [reflexivity|].
cbn [visited valid_rationals total_checked].
split; [apply NoDup_grid|]. split; [reflexivity|].
pose proof (length_filter (passes float max_value)
              (lowest_terms <$> grid max_denominator min_denominator)) as Hlen.
rewrite length_fmap in Hlen. lia.
Qed.
